(** * osmium::io::Header — meta information from the header of an OSM file

    A shallow embedding of [contrib/libosmium/osmium/io/header.hpp] and the
    properties of its accessors, mutators and of the joined bounding box.

    The class [Header] derives from [osmium::Options] and holds a vector of
    [osmium::Box] and a boolean flag.  Const member functions are embedded as
    functions of the object's value; the mutators, which all end in
    [return *this;], are embedded as operations on a store of Header objects
    that take the address of the receiver and give back an address. *)

From stdpp Require Import base option list gmap strings.
From Stdlib Require Import ZArith Lia.

(** ** The Box collaborator *)

(** Modelled from the spec: the operations of [osmium::Box]
    (osmium/osm/box.hpp, included by header.hpp) that the header uses.
    [Box_default] is the default-constructed box [osmium::Box{}], [valid] its
    validity predicate, and [extend acc b] the value of [acc] after the
    in-place call [acc.extend(b)]. *)
Class BoxOps (Box : Type) : Type := {
  Box_default : Box;
  valid : Box → bool;
  extend : Box → Box → Box
}.

(** Modelled from the spec: the contract of [osmium::Box] (osmium/osm/box.hpp):
    "a default/invalid construction state with a validity predicate" and
    "an in-place extend operation that grows a box to include another box's
    extent, where extending by an invalid box is a no-op and extending an
    invalid box by a valid one adopts the valid box's extent".  The last law
    reads "grows": a valid box grown by a valid box is a valid box. *)
Class BoxContract (Box : Type) `{BoxOps Box} : Prop := {
  default_invalid : valid Box_default = false;
  extend_invalid_noop :
    ∀ acc b : Box, valid b = false → extend acc b = acc;
  extend_adopts :
    ∀ acc b : Box, valid acc = false → valid b = true → extend acc b = b;
  extend_grown_valid :
    ∀ acc b : Box, valid acc = true → valid b = true →
                   valid (extend acc b) = true
}.

(** ** The Options parent class *)

(** Modelled from the spec: [osmium::Options] (osmium/util/options.hpp), the
    parent class of Header: "ordered string-keyed key-value storage", built
    from "an ordered list of key-value pairs", read with "get-by-key returning
    an optional/default". *)
Definition Options : Type := list (string * string).

(** Modelled from the spec: [Options()], the empty option set. *)
Definition Options_default : Options := [].

(** Modelled from the spec: [Options(values)], initialised "from an ordered
    list of key-value pairs". *)
Definition Options_init (values : list (string * string)) : Options := values.

(** Modelled from the spec: [Options::get(key, default_value)], the value
    stored under [key], or the default when there is none. *)
Fixpoint Options_get (o : Options) (key default_value : string) : string :=
  match o with
  | [] => default_value
  | (k, v) :: rest =>
      if String.eqb k key then v else Options_get rest key default_value
  end.

(** ** std::vector operations used by the header *)

Definition empty {A : Type} (v : list A) : bool :=
  match v with [] => true | _ :: _ => false end.

(** [v.front()]: the first element; calling it on an empty vector is undefined
    behaviour, which is [None] here. *)
Definition front {A : Type} (v : list A) : option A :=
  match v with [] => None | x :: _ => Some x end.

Definition push_back {A : Type} (v : list A) (x : A) : list A := v ++ [x].

(** ** The Header class *)

Section Header.

Context {Box : Type} `{BoxOps Box}.

Record Header : Type := mkHeader {
  Options_base : Options;                  (* : public osmium::Options *)
  m_boxes : list Box;                      (* std::vector<osmium::Box> *)
  m_has_multiple_object_versions : bool
}.

(** [Header() = default;] with the member initialisers [m_boxes{}] and
    [m_has_multiple_object_versions = false]. *)
Definition Header_default : Header :=
  {| Options_base := Options_default;
     m_boxes := [];
     m_has_multiple_object_versions := false |}.

(** [Header(const std::initializer_list<value_type>& values) : Options(values)] *)
Definition Header_init (values : list (string * string)) : Header :=
  {| Options_base := Options_init values;
     m_boxes := [];
     m_has_multiple_object_versions := false |}.

(** *** Const member functions *)

(** [boxes() const] *)
Definition boxes (h : Header) : list Box := m_boxes h.

(** [box() const]:
    [return m_boxes.empty() ? osmium::Box{} : m_boxes.front();]
    The result is [None] exactly when the body would run into undefined
    behaviour. *)
Definition box (h : Header) : option Box :=
  if empty (m_boxes h) then Some Box_default else front (m_boxes h).

(** The range-based for loop of [joined_boxes]: [box] is the local
    accumulator, [range] what is left of [m_boxes]. *)
Fixpoint joined_boxes_loop (box : Box) (range : list Box) : Box :=
  match range with
  | [] => box
  | b :: rest => joined_boxes_loop (extend box b) rest
  end.

(** [joined_boxes() const]:
    [osmium::Box box; for (const auto& b : m_boxes) { box.extend(b); } return box;] *)
Definition joined_boxes (h : Header) : Box :=
  joined_boxes_loop Box_default (m_boxes h).

(** [has_multiple_object_versions() const] *)
Definition has_multiple_object_versions (h : Header) : bool :=
  m_has_multiple_object_versions h.

(** The inherited [get(key, default_value)] of the parent class. *)
Definition get (h : Header) (key default_value : string) : string :=
  Options_get (Options_base h) key default_value.

(** *** Assignments to the members of [*this] *)

Definition assign_m_boxes (v : list Box) (h : Header) : Header :=
  {| Options_base := Options_base h;
     m_boxes := v;
     m_has_multiple_object_versions := m_has_multiple_object_versions h |}.

Definition assign_m_has_multiple_object_versions (value : bool) (h : Header)
  : Header :=
  {| Options_base := Options_base h;
     m_boxes := m_boxes h;
     m_has_multiple_object_versions := value |}.

(** *** Mutators

    Header objects live in a store, a reference [Header&] is an address.
    A mutator reads the receiver, assigns to one member and returns
    [*this]; on an address that holds no object the call is undefined
    ([None]). *)

Definition ref : Type := nat.

Definition this_update (f : Header → Header) (this : ref)
    (σ : gmap nat Header) : option (ref * gmap nat Header) :=
  h ← σ !! this;
  Some (this, <[this := f h]> σ).

(** [Header& boxes(const std::vector<osmium::Box>& boxes)]:
    [m_boxes = boxes; return *this;]
    (the overload of [boxes] that sets all the bounding boxes). *)
Definition set_boxes (this : ref) (bs : list Box) :=
  this_update (assign_m_boxes bs) this.

(** [Header& add_box(const osmium::Box& box)]:
    [m_boxes.push_back(box); return *this;] *)
Definition add_box (this : ref) (b : Box) :=
  this_update (λ h, assign_m_boxes (push_back (m_boxes h) b) h) this.

(** [Header& set_has_multiple_object_versions(bool value)]:
    [m_has_multiple_object_versions = value; return *this;] *)
Definition set_has_multiple_object_versions (this : ref) (value : bool) :=
  this_update (assign_m_has_multiple_object_versions value) this.

(** A call [r.m()] of a const member function through a reference. *)
Definition call {A : Type} (m : Header → A) (r : ref)
    (σ : gmap nat Header) : option A :=
  m <$> σ !! r.

(** [h.add_box(b1).add_box(b2).set_has_multiple_object_versions(true)] *)
Definition chained (this : ref) (b1 b2 : Box) (σ : gmap nat Header)
  : option (ref * gmap nat Header) :=
  '(r1, σ1) ← add_box this b1 σ;
  '(r2, σ2) ← add_box r1 b2 σ1;
  set_has_multiple_object_versions r2 true σ2.

(** [h.add_box(b1); h.add_box(b2); h.set_has_multiple_object_versions(true);] *)
Definition separate (this : ref) (b1 b2 : Box) (σ : gmap nat Header)
  : option (ref * gmap nat Header) :=
  '(_, σ1) ← add_box this b1 σ;
  '(_, σ2) ← add_box this b2 σ1;
  set_has_multiple_object_versions this true σ2.

End Header.

Arguments Header Box : clear implicits.

(** ** A bounding box with coordinates *)

Module Geo.

(** Modelled from the spec: a longitude-latitude pair.  Coordinates are
    integers (degrees in fixed-point units); only their order is used. *)
Record Location : Type := mkLocation { lon : Z; lat : Z }.

(** Modelled from the spec: [osmium::Box] (osmium/osm/box.hpp), "a
    rectangular geographic extent (min/max longitude-latitude pair)" that
    "may be invalid (empty/unset)". *)
Inductive Box : Type :=
| Invalid
| Extent (bottom_left top_right : Location).

(** Modelled from the spec: [Box::valid()], the validity predicate. *)
Definition Box_valid (b : Box) : bool :=
  match b with Invalid => false | Extent _ _ => true end.

(** Modelled from the spec: [Box::extend(const Box&)], which "grows a box
    to include another box's extent" (the minimum enclosing box), "where
    extending by an invalid box is a no-op and extending an invalid box by
    a valid one adopts the valid box's extent". *)
Definition Box_extend (acc b : Box) : Box :=
  match acc, b with
  | _, Invalid => acc
  | Invalid, Extent _ _ => b
  | Extent bl tr, Extent bl' tr' =>
      Extent (mkLocation (Z.min (lon bl) (lon bl')) (Z.min (lat bl) (lat bl')))
             (mkLocation (Z.max (lon tr) (lon tr')) (Z.max (lat tr) (lat tr')))
  end.

(** Modelled from the spec: geometric containment of the extent of [inner]
    in the extent of [outer]; the empty box lies in every box. *)
Definition Box_contains (outer inner : Box) : bool :=
  match inner, outer with
  | Invalid, _ => true
  | Extent _ _, Invalid => false
  | Extent bl tr, Extent obl otr =>
      (lon obl <=? lon bl)%Z && (lat obl <=? lat bl)%Z &&
      (lon tr <=? lon otr)%Z && (lat tr <=? lat otr)%Z
  end.

#[global] Instance ops : BoxOps Box :=
  {| Box_default := Invalid; valid := Box_valid; extend := Box_extend |}.

Definition rect (x1 y1 x2 y2 : Z) : Box :=
  Extent (mkLocation x1 y1) (mkLocation x2 y2).

(** The boxes of the spec's scenario: [(-1,-1),(1,1)] and [(0,0),(2,2)]. *)
Definition BoxA : Box := rect (-1) (-1) 1 1.
Definition BoxB : Box := rect 0 0 2 2.

Definition header_of (bs : list Box) (flag : bool) : Header Box :=
  {| Options_base := [("generator", "osmium")];
     m_boxes := bs;
     m_has_multiple_object_versions := flag |}.

(** A store that holds one Header, at address 7. *)
Definition h7 : Header Box := header_of [BoxA] false.
Definition store7 : gmap nat (Header Box) := {[7 := h7]}.

End Geo.

(** A box type on which [extend] keeps the last valid box: it has the invalid
    box as identity element, and is not a geometric union. *)
Module LastWins.

Definition Box : Type := option nat.

#[global] Instance ops : BoxOps Box :=
  {| Box_default := None;
     valid := λ b, match b with Some _ => true | None => false end;
     extend := λ acc b, match b with Some _ => b | None => acc end |}.

End LastWins.

(** ** The mutable accessor and repeated calls *)

Section Access.

Context {Box : Type}.

(** A reference [std::vector<osmium::Box>&] into the store: the member
    [m_boxes] of the Header object at an address. *)
Inductive vector_ref : Type := m_boxes_of (r : ref).

(** [std::vector<osmium::Box>& boxes() noexcept { return m_boxes; }]
    (the non-const overload): a reference to the member of the receiver. *)
Definition boxes_mut (this : ref) (σ : gmap nat (Header Box))
  : option vector_ref :=
  _ ← σ !! this;
  Some (m_boxes_of this).

(** Reading the vector behind a reference. *)
Definition vector_load (v : vector_ref) (σ : gmap nat (Header Box))
  : option (list Box) :=
  match v with m_boxes_of r => m_boxes <$> σ !! r end.

(** Changing the vector behind a reference in place ([v = bs],
    [v.push_back(b)], [v.clear()], ...): [f] maps the old contents to the
    new ones. *)
Definition vector_store (v : vector_ref) (f : list Box → list Box)
    (σ : gmap nat (Header Box)) : option (gmap nat (Header Box)) :=
  match v with
  | m_boxes_of r =>
      h ← σ !! r;
      Some (<[r := assign_m_boxes (f (m_boxes h)) h]> σ)
  end.

(** [for (const auto& b : bs) { header.add_box(b); }] *)
Fixpoint add_box_each (this : ref) (bs : list Box)
    (σ : gmap nat (Header Box)) : option (gmap nat (Header Box)) :=
  match bs with
  | [] => Some σ
  | b :: rest =>
      '(_, σ1) ← add_box this b σ;
      add_box_each this rest σ1
  end.

End Access.

(** * Properties *)

(** ** The store *)

Section Store.

Context {Box : Type} `{BoxOps Box}.

Implicit Types (σ : gmap nat (Header Box)) (h : Header Box) (this r : ref).

Lemma this_update_Some f this σ h :
  σ !! this = Some h →
  this_update f this σ = Some (this, <[this := f h]> σ).
Proof. intros Hh. unfold this_update. by rewrite Hh. Qed.

Lemma this_update_None f this σ :
  σ !! this = None → this_update f this σ = None.
Proof. intros Hh. unfold this_update. by rewrite Hh. Qed.

Lemma call_insert {A} (m : Header Box → A) this σ h :
  call m this (<[this := h]> σ) = Some (m h).
Proof. unfold call. by rewrite lookup_insert_eq. Qed.

End Store.

(** ** The loop of joined_boxes *)

Section Loop.

Context {Box : Type} `{BoxOps Box}.

Implicit Types (acc b : Box) (l : list Box).

Lemma joined_boxes_loop_fold_left l acc :
  joined_boxes_loop acc l = fold_left extend l acc.
Proof. revert acc. induction l as [|b l IH]; intros acc; simpl; auto. Qed.

Lemma joined_boxes_loop_app l1 l2 acc :
  joined_boxes_loop acc (l1 ++ l2) =
  joined_boxes_loop (joined_boxes_loop acc l1) l2.
Proof. revert acc. induction l1 as [|b l1 IH]; intros acc; simpl; auto. Qed.

Lemma joined_boxes_loop_push_back l b acc :
  joined_boxes_loop acc (push_back l b) =
  extend (joined_boxes_loop acc l) b.
Proof. unfold push_back. by rewrite joined_boxes_loop_app. Qed.

Section Contract.

Context `{!BoxContract Box}.

Lemma valid_extend acc b : valid (extend acc b) = valid acc || valid b.
Proof.
  destruct (valid b) eqn:Hb.
  - destruct (valid acc) eqn:Ha.
    + by rewrite extend_grown_valid.
    + by rewrite extend_adopts.
  - rewrite extend_invalid_noop by done. by rewrite orb_false_r.
Qed.

Lemma valid_joined_boxes_loop l acc :
  valid (joined_boxes_loop acc l) = valid acc || existsb valid l.
Proof.
  revert acc. induction l as [|b l IH]; intros acc; simpl.
  - by rewrite orb_false_r.
  - by rewrite IH, valid_extend, orb_assoc.
Qed.

Lemma existsb_valid_false l :
  existsb valid l = false ↔ Forall (λ b, valid b = false) l.
Proof.
  induction l as [|b l IH]; simpl.
  - split; [constructor | done].
  - rewrite orb_false_iff, IH. split.
    + intros [? ?]. by constructor.
    + by inversion 1.
Qed.

End Contract.

(** If [extend] has the invalid box as identity and is commutative and
    associative on valid boxes, the order in which two boxes are joined to
    an accumulator does not matter. *)
Section Union.

Hypothesis extend_by_invalid :
  ∀ acc b, valid b = false → extend acc b = acc.
Hypothesis extend_of_invalid :
  ∀ acc b, valid acc = false → valid b = true → extend acc b = b.
Hypothesis extend_comm :
  ∀ a b, valid a = true → valid b = true → extend a b = extend b a.
Hypothesis extend_assoc :
  ∀ a b c, valid a = true → valid b = true → valid c = true →
           extend (extend a b) c = extend a (extend b c).



End Union.

End Loop.

(** ** The box with coordinates meets the contract *)



Lemma Geo_extend_contains (acc b : Geo.Box) :
  Geo.Box_contains (extend acc b) acc = true.
Proof.
  destruct acc as [|bl tr], b as [|bl' tr']; simpl; try done.
  - rewrite !andb_true_iff, !Z.leb_le. lia.
  - rewrite !andb_true_iff, !Z.leb_le. lia.
Qed.

#[global] Instance Geo_contract : BoxContract Geo.Box.
Proof.
  split.
  - done.
  - intros [|bl tr] [|bl' tr']; cbn; congruence.
  - intros [|bl tr] [|bl' tr']; cbn; congruence.
  - intros [|bl tr] [|bl' tr']; cbn; congruence.
Qed.

(** The scenario of the spec: the header with BoxA then BoxB has the joined
    box [(-1,-1),(2,2)] and the first box BoxA. *)
Example scenario_joined_boxes :
  joined_boxes (Geo.header_of [Geo.BoxA; Geo.BoxB] false) = Geo.rect (-1) (-1) 2 2
  ∧ box (Geo.header_of [Geo.BoxA; Geo.BoxB] false) = Some Geo.BoxA.
Proof. done. Qed.

(** ** extend with an identity element need not be a union *)


(** On a box type that meets the identity laws only, the order of the boxes
    can change the joined box: order independence rests on [extend] being a
    union (commutative and associative on valid boxes). *)
Remark LastWins_order_matters :
  joined_boxes_loop Box_default [Some 1; Some 2] ≠
  joined_boxes_loop Box_default ([Some 2; Some 1] : list LastWins.Box).
Proof. done. Qed.

(** ** The bounding-box accessors *)

(** C1. For every sequence of boxes held by a Header, the empty one included,
    [joined_boxes] returns the left-to-right fold of [extend] over the
    sequence, started from the default-constructed box; and the result is
    invalid if and only if the sequence is empty or holds invalid boxes
    only. *)
Theorem joined_boxes_fold_extend {Box : Type} `{BoxContract Box}
    (h : Header Box) :
  joined_boxes h = fold_left extend (boxes h) Box_default ∧
  (valid (joined_boxes h) = false ↔
     boxes h = [] ∨ Forall (λ b, valid b = false) (boxes h)).
Proof.
  unfold joined_boxes, boxes. split.
  - apply joined_boxes_loop_fold_left.
  - rewrite valid_joined_boxes_loop, default_invalid, orb_false_l.
    rewrite existsb_valid_false. split; [by right|].
    intros [->|Hall]; [constructor | done].
Qed.

Lemma joined_boxes_fold_extend_witness :
  BoxContract Geo.Box ∧
  joined_boxes (Geo.header_of [Geo.BoxA; Geo.Invalid; Geo.BoxB] false) =
    fold_left extend [Geo.BoxA; Geo.Invalid; Geo.BoxB] Box_default ∧
  (valid (joined_boxes (Geo.header_of [Geo.BoxA; Geo.Invalid; Geo.BoxB] false))
     = false ↔
   [Geo.BoxA; Geo.Invalid; Geo.BoxB] = [] ∨
   Forall (λ b, valid b = false) [Geo.BoxA; Geo.Invalid; Geo.BoxB]).
Proof.
  split; [exact Geo_contract|].
  exact (joined_boxes_fold_extend
           (Geo.header_of [Geo.BoxA; Geo.Invalid; Geo.BoxB] false)).
Defined.

(** C2. On a non-empty box sequence [box] returns exactly the first element,
    whatever the rest of the sequence is; on an empty sequence it returns
    the default-constructed box, which is invalid; and it is defined on
    every Header (the call of [front] is never reached on an empty vector). *)
Theorem box_first_or_invalid {Box : Type} `{BoxContract Box} (h : Header Box) :
  (∀ b rest, boxes h = b :: rest → box h = Some b) ∧
  (boxes h = [] → box h = Some Box_default ∧ valid Box_default = false) ∧
  is_Some (box h).
Proof.
  unfold boxes, box. split_and!.
  - by intros b rest ->.
  - intros ->. split; [done | apply default_invalid].
  - destruct (m_boxes h); simpl; eauto.
Qed.

Lemma box_first_or_invalid_witness :
  BoxContract Geo.Box ∧
  box (Geo.header_of [Geo.BoxA; Geo.BoxB] true) = Some Geo.BoxA ∧
  box (Geo.header_of [] true) = Some Geo.Invalid ∧
  valid Geo.Invalid = false.
Proof.
  split; [exact Geo_contract|].
  pose proof (box_first_or_invalid (Geo.header_of [Geo.BoxA; Geo.BoxB] true))
    as (Hfirst & _ & _).
  pose proof (box_first_or_invalid (Geo.header_of [] true)) as (_ & Hnone & _).
  split; [exact (Hfirst Geo.BoxA [Geo.BoxB] eq_refl) | exact (Hnone eq_refl)].
Defined.




(** ** The mutators *)

Section Mutators.

Context {Box : Type}.

Implicit Types (σ : gmap nat (Header Box)) (h : Header Box) (this r : ref)
               (b : Box) (bs : list Box) (v : bool).

(** C4. On a Header with box sequence [S], [add_box b] returns the
    reference it was called on and leaves the sequence [S ++ [b]]: the
    earlier elements keep their places, and [b] is stored as it is,
    whether valid or not and whether already present or not. *)
Theorem add_box_appends σ this h b :
  σ !! this = Some h →
  ∃ σ', add_box this b σ = Some (this, σ') ∧
        call boxes this σ' = Some (boxes h ++ [b]) ∧
        (∀ i x, boxes h !! i = Some x →
                call (λ h', boxes h' !! i) this σ' = Some (Some x)) ∧
        call (λ h', boxes h' !! length (boxes h)) this σ' = Some (Some b).
Proof.
  intros Hh. eexists. split; [by apply this_update_Some|].
  unfold boxes, push_back. split_and!.
  - by rewrite call_insert.
  - intros i x Hi. rewrite call_insert. cbn. f_equal.
    by apply lookup_app_l_Some.
  - rewrite call_insert. cbn. f_equal. by apply list_lookup_middle.
Qed.

(** C5. [set_boxes S] (the overload [boxes(const std::vector<Box>&)])
    returns the reference it was called on and replaces the whole box
    sequence by [S], whatever it held before: [boxes()] then yields [S]. *)
Theorem set_boxes_replaces σ this h bs :
  σ !! this = Some h →
  ∃ σ', set_boxes this bs σ = Some (this, σ') ∧
        call boxes this σ' = Some bs.
Proof.
  intros Hh. eexists. split; [by apply this_update_Some|].
  by rewrite call_insert.
Qed.

(** C6. A default-constructed Header has the flag false, no boxes and no
    options; and on every Header, [set_has_multiple_object_versions v]
    followed by [has_multiple_object_versions()] returns [v]. *)
Theorem default_and_flag_roundtrip :
  has_multiple_object_versions (@Header_default Box) = false ∧
  boxes (@Header_default Box) = [] ∧
  Options_base (@Header_default Box) = [] ∧
  (∀ key default_value,
     get (@Header_default Box) key default_value = default_value) ∧
  (∀ σ this h v,
     σ !! this = Some h →
     ∃ σ', set_has_multiple_object_versions this v σ = Some (this, σ') ∧
           call has_multiple_object_versions this σ' = Some v).
Proof.
  split_and!; try done.
  intros σ this h v Hh. eexists. split; [by apply this_update_Some|].
  by rewrite call_insert.
Qed.

(** The three calls of the chain, made on [this] one after the other. *)
Lemma separate_Some σ this h b1 b2 :
  σ !! this = Some h →
  separate this b1 b2 σ =
  Some (this,
        <[this := assign_m_has_multiple_object_versions true
                    (assign_m_boxes (push_back (push_back (m_boxes h) b1) b2) h)]> σ).
Proof.
  intros Hh. unfold separate, add_box, set_has_multiple_object_versions.
  rewrite (this_update_Some _ _ _ _ Hh). simpl.
  rewrite (this_update_Some _ _ _ _ (lookup_insert_eq _ _ _)). simpl.
  rewrite (this_update_Some _ _ _ _ (lookup_insert_eq _ _ _)). simpl.
  by rewrite !insert_insert_eq.
Qed.

Lemma chained_separate σ this b1 b2 :
  chained this b1 b2 σ = separate this b1 b2 σ.
Proof.
  unfold chained, separate, add_box, set_has_multiple_object_versions.
  destruct (σ !! this) as [h|] eqn:Hh.
  - rewrite (this_update_Some _ _ _ _ Hh). simpl.
    by rewrite (this_update_Some _ _ _ _ (lookup_insert_eq _ _ _)).
  - by rewrite (this_update_None _ _ _ Hh).
Qed.

(** C7. The chained expression
    [h.add_box(b1).add_box(b2).set_has_multiple_object_versions(true)]
    leaves [h] with its box sequence followed by [b1] then [b2] and with
    the flag true, and it has the same result and final store as the three
    mutators called on [h] one after the other. *)
Theorem chained_add_box_set_flag σ this h b1 b2 :
  σ !! this = Some h →
  chained this b1 b2 σ = separate this b1 b2 σ ∧
  ∃ σ', chained this b1 b2 σ = Some (this, σ') ∧
        call boxes this σ' = Some (boxes h ++ [b1; b2]) ∧
        call has_multiple_object_versions this σ' = Some true.
Proof.
  intros Hh. split; [apply chained_separate|].
  eexists. split.
  - rewrite chained_separate. by apply separate_Some.
  - rewrite !call_insert. simpl. unfold push_back, boxes.
    by rewrite <- app_assoc.
Qed.

(** C8. Each mutator succeeds on every Header and changes only the member
    it names: [add_box] and [set_boxes] keep the flag and the options,
    [set_has_multiple_object_versions] keeps the boxes and the options;
    every other object of the store is left as it was. *)
Theorem mutators_frame σ this h b bs v :
  σ !! this = Some h →
  (∃ h', add_box this b σ = Some (this, <[this := h']> σ) ∧
         has_multiple_object_versions h' = has_multiple_object_versions h ∧
         Options_base h' = Options_base h) ∧
  (∃ h', set_boxes this bs σ = Some (this, <[this := h']> σ) ∧
         has_multiple_object_versions h' = has_multiple_object_versions h ∧
         Options_base h' = Options_base h) ∧
  (∃ h', set_has_multiple_object_versions this v σ
           = Some (this, <[this := h']> σ) ∧
         boxes h' = boxes h ∧
         Options_base h' = Options_base h) ∧
  (∀ h' r, r ≠ this → <[this := h']> σ !! r = σ !! r).
Proof.
  intros Hh. split_and!.
  - eexists. split; [by apply this_update_Some | done].
  - eexists. split; [by apply this_update_Some | done].
  - eexists. split; [by apply this_update_Some | done].
  - intros h' r Hne. by rewrite lookup_insert_ne.
Qed.

End Mutators.

(** C9. The flag has no influence on the other observations: two Headers
    with the same box sequence and the same options, whatever their flags,
    agree on [boxes], [box], [joined_boxes] and on every option lookup. *)
Theorem flag_noninterference {Box : Type} `{BoxOps Box} (h1 h2 : Header Box) :
  m_boxes h1 = m_boxes h2 →
  Options_base h1 = Options_base h2 →
  boxes h1 = boxes h2 ∧
  box h1 = box h2 ∧
  joined_boxes h1 = joined_boxes h2 ∧
  (∀ key default_value, get h1 key default_value = get h2 key default_value).
Proof.
  unfold boxes, box, joined_boxes, get. intros -> ->. done.
Qed.

(** ** Adding a box and the joined box *)

Section Growth.

Context {Box : Type} `{BoxOps Box}.

(** [contains outer inner]: the extent of [inner] lies within [outer]. *)
Variable contains : Box → Box → Prop.

Hypothesis extend_grows : ∀ acc b : Box, contains (extend acc b) acc.
Hypothesis extend_invalid_identity :
  ∀ acc b : Box, valid b = false → extend acc b = acc.

(** C10. Adding a box never shrinks the joined box: when [extend] only
    grows a box and leaves it as it is on an invalid argument, the
    [joined_boxes] after [add_box b] contains the [joined_boxes] before
    the call, and is equal to it when [b] is invalid. *)
Theorem add_box_joined_boxes_grows
    (σ : gmap nat (Header Box)) (this : ref) (h : Header Box) (b : Box) :
  σ !! this = Some h →
  ∃ σ' h', add_box this b σ = Some (this, σ') ∧
           σ' !! this = Some h' ∧
           contains (joined_boxes h') (joined_boxes h) ∧
           (valid b = false → joined_boxes h' = joined_boxes h).
Proof.
  intros Hh. eexists _, _. split; [by apply this_update_Some|].
  split; [apply lookup_insert_eq|].
  unfold joined_boxes. simpl. rewrite joined_boxes_loop_push_back.
  split; [apply extend_grows | apply extend_invalid_identity].
Qed.

End Growth.

(** ** The theorems at concrete Headers *)

Lemma add_box_appends_witness :
  Geo.store7 !! 7 = Some Geo.h7 ∧
  ∃ σ', add_box 7 Geo.Invalid Geo.store7 = Some (7, σ') ∧
        call boxes 7 σ' = Some ([Geo.BoxA] ++ [Geo.Invalid]) ∧
        (∀ i x, [Geo.BoxA] !! i = Some x →
                call (λ h', boxes h' !! i) 7 σ' = Some (Some x)) ∧
        call (λ h', boxes h' !! 1) 7 σ' = Some (Some Geo.Invalid).
Proof.
  split; [reflexivity|].
  exact (add_box_appends Geo.store7 7 Geo.h7 Geo.Invalid eq_refl).
Defined.

Lemma set_boxes_replaces_witness :
  Geo.store7 !! 7 = Some Geo.h7 ∧
  ∃ σ', set_boxes 7 [Geo.BoxB; Geo.BoxB] Geo.store7 = Some (7, σ') ∧
        call boxes 7 σ' = Some [Geo.BoxB; Geo.BoxB].
Proof.
  split; [reflexivity|].
  exact (set_boxes_replaces Geo.store7 7 Geo.h7 [Geo.BoxB; Geo.BoxB] eq_refl).
Defined.

Lemma default_and_flag_roundtrip_witness :
  Geo.store7 !! 7 = Some Geo.h7 ∧
  ∃ σ', set_has_multiple_object_versions 7 true Geo.store7 = Some (7, σ') ∧
        call has_multiple_object_versions 7 σ' = Some true.
Proof.
  split; [reflexivity|].
  destruct (@default_and_flag_roundtrip Geo.Box) as (_ & _ & _ & _ & Hset).
  exact (Hset Geo.store7 7 Geo.h7 true eq_refl).
Defined.

Lemma chained_add_box_set_flag_witness :
  Geo.store7 !! 7 = Some Geo.h7 ∧
  chained 7 Geo.BoxB Geo.Invalid Geo.store7 =
    separate 7 Geo.BoxB Geo.Invalid Geo.store7 ∧
  ∃ σ', chained 7 Geo.BoxB Geo.Invalid Geo.store7 = Some (7, σ') ∧
        call boxes 7 σ' = Some ([Geo.BoxA] ++ [Geo.BoxB; Geo.Invalid]) ∧
        call has_multiple_object_versions 7 σ' = Some true.
Proof.
  split; [reflexivity|].
  exact (chained_add_box_set_flag Geo.store7 7 Geo.h7 Geo.BoxB Geo.Invalid
           eq_refl).
Defined.

Lemma mutators_frame_witness :
  Geo.store7 !! 7 = Some Geo.h7 ∧
  ∃ h', set_has_multiple_object_versions 7 true Geo.store7
          = Some (7, <[7 := h']> Geo.store7) ∧
        boxes h' = [Geo.BoxA] ∧
        Options_base h' = [("generator", "osmium")].
Proof.
  split; [reflexivity|].
  exact (proj1 (proj2 (proj2
    (mutators_frame Geo.store7 7 Geo.h7 Geo.BoxB [] true eq_refl)))).
Defined.

Lemma flag_noninterference_witness :
  has_multiple_object_versions (Geo.header_of [Geo.BoxA; Geo.BoxB] true) ≠
  has_multiple_object_versions (Geo.header_of [Geo.BoxA; Geo.BoxB] false) ∧
  boxes (Geo.header_of [Geo.BoxA; Geo.BoxB] true) =
    boxes (Geo.header_of [Geo.BoxA; Geo.BoxB] false) ∧
  box (Geo.header_of [Geo.BoxA; Geo.BoxB] true) =
    box (Geo.header_of [Geo.BoxA; Geo.BoxB] false) ∧
  joined_boxes (Geo.header_of [Geo.BoxA; Geo.BoxB] true) =
    joined_boxes (Geo.header_of [Geo.BoxA; Geo.BoxB] false) ∧
  (∀ key default_value,
     get (Geo.header_of [Geo.BoxA; Geo.BoxB] true) key default_value =
     get (Geo.header_of [Geo.BoxA; Geo.BoxB] false) key default_value).
Proof.
  split; [discriminate|].
  exact (flag_noninterference (Geo.header_of [Geo.BoxA; Geo.BoxB] true)
           (Geo.header_of [Geo.BoxA; Geo.BoxB] false) eq_refl eq_refl).
Defined.

Lemma add_box_joined_boxes_grows_witness :
  (∀ acc b : Geo.Box, Geo.Box_contains (extend acc b) acc = true) ∧
  (∀ acc b : Geo.Box, valid b = false → extend acc b = acc) ∧
  Geo.store7 !! 7 = Some Geo.h7 ∧
  ∃ σ' h', add_box 7 Geo.BoxB Geo.store7 = Some (7, σ') ∧
           σ' !! 7 = Some h' ∧
           Geo.Box_contains (joined_boxes h') (joined_boxes Geo.h7) = true ∧
           (valid Geo.BoxB = false → joined_boxes h' = joined_boxes Geo.h7).
Proof.
  split; [exact Geo_extend_contains|].
  split; [exact extend_invalid_noop|].
  split; [reflexivity|].
  exact (add_box_joined_boxes_grows (λ outer inner, Geo.Box_contains outer inner = true)
           Geo_extend_contains extend_invalid_noop
           Geo.store7 7 Geo.h7 Geo.BoxB eq_refl).
Defined.

(** * How the operations compose *)

Section Compose.

Context {Box : Type} `{BoxOps Box}.

Implicit Types (σ : gmap nat (Header Box)) (h : Header Box) (this r : ref)
               (b : Box) (bs : list Box) (v : bool).

(** Two updates of the receiver, the second on the reference the first
    returns, are one update by the composed assignment. *)
Lemma this_update_then (f g : Header Box → Header Box) this σ :
  (this_update f this σ ≫= λ '(r, σ1), this_update g r σ1) =
  this_update (g ∘ f) this σ.
Proof.
  destruct (σ !! this) as [h|] eqn:Hh.
  - rewrite (this_update_Some f this σ h Hh). simpl.
    rewrite (this_update_Some g this _ (f h) (lookup_insert_eq _ _ _)).
    rewrite (this_update_Some (g ∘ f) this σ h Hh).
    by rewrite insert_insert_eq.
  - by rewrite !this_update_None.
Qed.

Lemma this_update_inj (f g : Header Box → Header Box) this σ h :
  σ !! this = Some h →
  this_update f this σ = this_update g this σ → f h = g h.
Proof.
  intros Hh. rewrite !(this_update_Some _ this σ h Hh). intros Heq.
  assert (Hl : <[this := f h]> σ !! this = <[this := g h]> σ !! this)
    by congruence.
  rewrite !lookup_insert_eq in Hl. congruence.
Qed.

Lemma assign_m_boxes_same h : assign_m_boxes (m_boxes h) h = h.
Proof. by destruct h. Qed.

Lemma assign_flag_same h :
  assign_m_has_multiple_object_versions (m_has_multiple_object_versions h) h
  = h.
Proof. by destruct h. Qed.

(** X1. After [add_box b] the joined box is the joined box of before,
    extended by [b]: the loop need not be run again from the start. *)
Theorem add_box_joined_boxes_extend σ this h b :
  σ !! this = Some h →
  ∃ σ', add_box this b σ = Some (this, σ') ∧
        call joined_boxes this σ' = Some (extend (joined_boxes h) b).
Proof.
  intros Hh. eexists. split; [by apply this_update_Some|].
  rewrite call_insert. unfold joined_boxes. simpl.
  by rewrite joined_boxes_loop_push_back.
Qed.

(** X2. [add_box] changes what [box()] returns only on a Header without
    boxes, where the added box becomes the first one; on a Header that has
    a box already, [box()] returns the same box after the call. *)
Theorem add_box_keeps_first_box σ this h b :
  σ !! this = Some h →
  ∃ σ', add_box this b σ = Some (this, σ') ∧
        (boxes h = [] → call box this σ' = Some (Some b)) ∧
        (boxes h ≠ [] → call box this σ' = Some (box h)).
Proof.
  intros Hh. eexists. split; [by apply this_update_Some|].
  rewrite call_insert. unfold boxes, box, push_back. simpl.
  destruct (m_boxes h) as [|b0 l]; simpl; split; congruence.
Qed.

(** X3. [set_boxes] forgets every earlier change of the box sequence: after
    an [add_box] or another [set_boxes], the call gives the same reference
    and the same store as the call alone. *)
Theorem set_boxes_last_wins σ this b bs bs' :
  (add_box this b σ ≫= λ '(r, σ1), set_boxes r bs σ1) = set_boxes this bs σ ∧
  (set_boxes this bs' σ ≫= λ '(r, σ1), set_boxes r bs σ1)
    = set_boxes this bs σ.
Proof.
  unfold add_box, set_boxes. by rewrite !this_update_then.
Qed.

(** X4. The flag and the boxes are set independently: setting the flag
    before or after [add_box], and before or after [set_boxes], gives the
    same reference and the same store. *)
Theorem flag_and_boxes_commute σ this b bs v :
  (add_box this b σ ≫= λ '(r, σ1), set_has_multiple_object_versions r v σ1)
  = (set_has_multiple_object_versions this v σ ≫= λ '(r, σ1), add_box r b σ1)
  ∧
  (set_boxes this bs σ ≫= λ '(r, σ1), set_has_multiple_object_versions r v σ1)
  = (set_has_multiple_object_versions this v σ ≫= λ '(r, σ1), set_boxes r bs σ1).
Proof.
  unfold add_box, set_boxes, set_has_multiple_object_versions.
  by rewrite !this_update_then.
Qed.

(** X5. The order of two [add_box] calls is kept in the Header: adding [b1]
    then [b2] gives the same store as adding [b2] then [b1] only when the
    two boxes are equal. *)
Theorem add_box_order_observable σ this h b1 b2 :
  σ !! this = Some h →
  (add_box this b1 σ ≫= λ '(r, σ1), add_box r b2 σ1)
  = (add_box this b2 σ ≫= λ '(r, σ1), add_box r b1 σ1)
  ↔ b1 = b2.
Proof.
  intros Hh. split; [|by intros ->].
  unfold add_box. rewrite !this_update_then. intros Heq.
  apply (this_update_inj _ _ _ _ _ Hh) in Heq.
  apply (f_equal m_boxes) in Heq. simpl in Heq. unfold push_back in Heq.
  apply app_inj_tail in Heq as [Heq _].
  by apply app_inj_tail in Heq as [_ Heq].
Qed.

Lemma add_box_each_Some bs σ this h :
  σ !! this = Some h →
  add_box_each this bs σ =
  Some (<[this := assign_m_boxes (m_boxes h ++ bs) h]> σ).
Proof.
  revert σ h. induction bs as [|b bs IH]; intros σ h Hh; simpl.
  - by rewrite app_nil_r, assign_m_boxes_same, insert_id.
  - unfold add_box. rewrite (this_update_Some _ _ _ _ Hh). simpl.
    rewrite (IH _ _ (lookup_insert_eq _ _ _)). simpl.
    unfold push_back. by rewrite insert_insert_eq, <- app_assoc.
Qed.

(** X6. Adding the boxes of a list one by one is the same as one
    [set_boxes] with the old sequence followed by the list; the joined box
    afterwards is the fold of [extend] over the list, started from the
    joined box of before. *)
Theorem add_box_each_set_boxes σ this h bs :
  σ !! this = Some h →
  ∃ σ', add_box_each this bs σ = Some σ' ∧
        set_boxes this (boxes h ++ bs) σ = Some (this, σ') ∧
        call boxes this σ' = Some (boxes h ++ bs) ∧
        call joined_boxes this σ' = Some (fold_left extend bs (joined_boxes h)).
Proof.
  intros Hh. eexists. split; [by apply add_box_each_Some|].
  split; [by apply this_update_Some|].
  rewrite !call_insert. split; [done|].
  unfold joined_boxes. simpl.
  by rewrite joined_boxes_loop_app, joined_boxes_loop_fold_left.
Qed.

(** X7. Writing back what was read changes nothing: [set_boxes] with the
    current [boxes()] and [set_has_multiple_object_versions] with the current
    flag leave the whole store as it was. *)
Theorem set_current_value_noop σ this h :
  σ !! this = Some h →
  set_boxes this (boxes h) σ = Some (this, σ) ∧
  set_has_multiple_object_versions this (has_multiple_object_versions h) σ
    = Some (this, σ).
Proof.
  intros Hh. unfold set_boxes, set_has_multiple_object_versions.
  rewrite !(this_update_Some _ _ _ _ Hh).
  unfold boxes, has_multiple_object_versions.
  by rewrite assign_m_boxes_same, assign_flag_same, insert_id.
Qed.

End Compose.

(** * Invalid boxes and bounds in the joined box *)

Section Invalid.

Context {Box : Type} `{BoxContract Box}.

Implicit Types (h : Header Box) (acc b : Box) (l : list Box).

Lemma joined_boxes_loop_filter_valid l acc :
  joined_boxes_loop acc (List.filter valid l) = joined_boxes_loop acc l.
Proof.
  revert acc. induction l as [|b l IH]; intros acc; simpl; [done|].
  destruct (valid b) eqn:Hb; simpl.
  - apply IH.
  - by rewrite (extend_invalid_noop acc b Hb).
Qed.

(** X8. The invalid boxes of a Header have no part in the joined box:
    [joined_boxes] gives the same box when they are removed from the
    sequence, wherever they stand in it. *)
Theorem joined_boxes_ignores_invalid h :
  joined_boxes (assign_m_boxes (List.filter valid (boxes h)) h)
  = joined_boxes h.
Proof. unfold joined_boxes, boxes. simpl. apply joined_boxes_loop_filter_valid. Qed.


End Invalid.

Section UpperBound.

Context {Box : Type} `{BoxOps Box}.

Variable contains : Box → Box → Prop.

Hypothesis contains_trans :
  ∀ a b c : Box, contains a b → contains b c → contains a c.
Hypothesis extend_contains_acc : ∀ acc b : Box, contains (extend acc b) acc.
Hypothesis extend_contains_arg : ∀ acc b : Box, contains (extend acc b) b.

Lemma joined_boxes_loop_keeps (l : list Box) (acc x : Box) :
  contains acc x → contains (joined_boxes_loop acc l) x.
Proof.
  revert acc. induction l as [|b l IH]; intros acc Hx; simpl; [done|].
  apply IH. by apply contains_trans with acc.
Qed.

(** X10. When [extend] yields a box that contains both the receiver and the
    argument, the joined box contains every box of the Header. *)
Theorem joined_boxes_contains_each (h : Header Box) (b : Box) :
  b ∈ boxes h → contains (joined_boxes h) b.
Proof.
  unfold joined_boxes, boxes. generalize (@Box_default Box _).
  induction (m_boxes h) as [|b0 l IH]; intros acc Hin.
  - by apply elem_of_nil in Hin.
  - apply elem_of_cons in Hin as [->|Hin]; simpl.
    + by apply joined_boxes_loop_keeps.
    + by apply IH.
Qed.

End UpperBound.

Section LeastBound.

Context {Box : Type} `{BoxOps Box}.

Variable contains : Box → Box → Prop.

Hypothesis contains_default : ∀ c : Box, contains c Box_default.
Hypothesis extend_least :
  ∀ c acc b : Box, contains c acc → contains c b → contains c (extend acc b).


End LeastBound.

(** * The reference returned by the mutable accessor *)

Section Live.

Context {Box : Type} `{BoxOps Box}.

(** X12. The reference returned by the non-const [boxes()] stays attached to
    the Header: it reads the current sequence, it sees a box added later by
    [add_box], and a change made through it is the change [set_boxes] makes,
    seen by [boxes()] and [joined_boxes()], with the flag left as it was. *)
Theorem boxes_mut_live (σ : gmap nat (Header Box)) (this : ref)
    (h : Header Box) :
  σ !! this = Some h →
  ∃ v, boxes_mut this σ = Some v ∧
       vector_load v σ = Some (boxes h) ∧
       (∀ b σ', add_box this b σ = Some (this, σ') →
                vector_load v σ' = Some (boxes h ++ [b])) ∧
       (∀ f, ∃ σ', vector_store v f σ = Some σ' ∧
                   set_boxes this (f (boxes h)) σ = Some (this, σ') ∧
                   call boxes this σ' = Some (f (boxes h)) ∧
                   call joined_boxes this σ'
                     = Some (fold_left extend (f (boxes h)) Box_default) ∧
                   call has_multiple_object_versions this σ'
                     = Some (has_multiple_object_versions h)).
Proof.
  intros Hh. exists (m_boxes_of this). unfold boxes_mut, boxes. simpl.
  rewrite Hh. simpl. split_and!; [done..| |].
  - intros b σ'. unfold add_box.
    rewrite (this_update_Some _ _ _ _ Hh). intros [= <-].
    by rewrite lookup_insert_eq.
  - intros f. eexists. split; [done|].
    split; [by apply this_update_Some|].
    split_and!.
    + by rewrite call_insert.
    + rewrite call_insert. unfold joined_boxes. simpl.
      by rewrite joined_boxes_loop_fold_left.
    + by rewrite call_insert.
Qed.

End Live.

(** * Containment of boxes with coordinates *)

Lemma Geo_contains_trans (a b c : Geo.Box) :
  Geo.Box_contains a b = true → Geo.Box_contains b c = true →
  Geo.Box_contains a c = true.
Proof.
  destruct a as [|abl atr], b as [|bbl btr], c as [|cbl ctr]; simpl;
    try done.
  rewrite !andb_true_iff, !Z.leb_le. lia.
Qed.

Lemma Geo_extend_contains_arg (acc b : Geo.Box) :
  Geo.Box_contains (extend acc b) b = true.
Proof.
  destruct acc as [|bl tr], b as [|bl' tr']; simpl; try done.
  - rewrite !andb_true_iff, !Z.leb_le. lia.
  - rewrite !andb_true_iff, !Z.leb_le. lia.
Qed.



(** * The composition theorems at concrete Headers *)

Lemma add_box_joined_boxes_extend_witness :
  Geo.store7 !! 7 = Some Geo.h7 ∧
  ∃ σ', add_box 7 Geo.BoxB Geo.store7 = Some (7, σ') ∧
        call joined_boxes 7 σ' = Some (extend (joined_boxes Geo.h7) Geo.BoxB).
Proof.
  split; [reflexivity|].
  exact (add_box_joined_boxes_extend Geo.store7 7 Geo.h7 Geo.BoxB eq_refl).
Defined.

Lemma add_box_keeps_first_box_witness :
  Geo.store7 !! 7 = Some Geo.h7 ∧
  ∃ σ', add_box 7 Geo.BoxB Geo.store7 = Some (7, σ') ∧
        (boxes Geo.h7 = [] → call box 7 σ' = Some (Some Geo.BoxB)) ∧
        (boxes Geo.h7 ≠ [] → call box 7 σ' = Some (box Geo.h7)).
Proof.
  split; [reflexivity|].
  exact (add_box_keeps_first_box Geo.store7 7 Geo.h7 Geo.BoxB eq_refl).
Defined.

Lemma add_box_order_observable_witness :
  Geo.store7 !! 7 = Some Geo.h7 ∧
  ((add_box 7 Geo.BoxA Geo.store7 ≫= λ '(r, σ1), add_box r Geo.BoxB σ1)
   = (add_box 7 Geo.BoxB Geo.store7 ≫= λ '(r, σ1), add_box r Geo.BoxA σ1)
   ↔ Geo.BoxA = Geo.BoxB).
Proof.
  split; [reflexivity|].
  exact (add_box_order_observable Geo.store7 7 Geo.h7 Geo.BoxA Geo.BoxB
           eq_refl).
Defined.

Lemma add_box_each_set_boxes_witness :
  Geo.store7 !! 7 = Some Geo.h7 ∧
  ∃ σ', add_box_each 7 [Geo.BoxB; Geo.Invalid] Geo.store7 = Some σ' ∧
        set_boxes 7 (boxes Geo.h7 ++ [Geo.BoxB; Geo.Invalid]) Geo.store7
          = Some (7, σ') ∧
        call boxes 7 σ' = Some (boxes Geo.h7 ++ [Geo.BoxB; Geo.Invalid]) ∧
        call joined_boxes 7 σ'
          = Some (fold_left extend [Geo.BoxB; Geo.Invalid]
                    (joined_boxes Geo.h7)).
Proof.
  split; [reflexivity|].
  exact (add_box_each_set_boxes Geo.store7 7 Geo.h7 [Geo.BoxB; Geo.Invalid]
           eq_refl).
Defined.

Lemma set_current_value_noop_witness :
  Geo.store7 !! 7 = Some Geo.h7 ∧
  set_boxes 7 (boxes Geo.h7) Geo.store7 = Some (7, Geo.store7) ∧
  set_has_multiple_object_versions 7 (has_multiple_object_versions Geo.h7)
    Geo.store7 = Some (7, Geo.store7).
Proof.
  split; [reflexivity|].
  exact (set_current_value_noop Geo.store7 7 Geo.h7 eq_refl).
Defined.

Lemma joined_boxes_ignores_invalid_witness :
  BoxContract Geo.Box ∧
  joined_boxes
    (assign_m_boxes
       (List.filter valid
          (boxes (Geo.header_of [Geo.Invalid; Geo.BoxA; Geo.Invalid; Geo.BoxB]
                    false)))
       (Geo.header_of [Geo.Invalid; Geo.BoxA; Geo.Invalid; Geo.BoxB] false))
  = joined_boxes
      (Geo.header_of [Geo.Invalid; Geo.BoxA; Geo.Invalid; Geo.BoxB] false).
Proof.
  split; [exact Geo_contract|].
  exact (joined_boxes_ignores_invalid
           (Geo.header_of [Geo.Invalid; Geo.BoxA; Geo.Invalid; Geo.BoxB]
              false)).
Defined.


Lemma joined_boxes_contains_each_witness :
  (∀ a b c : Geo.Box, Geo.Box_contains a b = true →
     Geo.Box_contains b c = true → Geo.Box_contains a c = true) ∧
  (∀ acc b : Geo.Box, Geo.Box_contains (extend acc b) acc = true) ∧
  (∀ acc b : Geo.Box, Geo.Box_contains (extend acc b) b = true) ∧
  Geo.BoxB ∈ boxes (Geo.header_of [Geo.BoxA; Geo.BoxB] false) ∧
  Geo.Box_contains (joined_boxes (Geo.header_of [Geo.BoxA; Geo.BoxB] false))
    Geo.BoxB = true.
Proof.
  assert (Hin : Geo.BoxB ∈ boxes (Geo.header_of [Geo.BoxA; Geo.BoxB] false)).
  { right. left. }
  split; [exact Geo_contains_trans|].
  split; [exact Geo_extend_contains|].
  split; [exact Geo_extend_contains_arg|].
  split; [exact Hin|].
  exact (joined_boxes_contains_each
           (λ outer inner, Geo.Box_contains outer inner = true)
           Geo_contains_trans Geo_extend_contains Geo_extend_contains_arg
           (Geo.header_of [Geo.BoxA; Geo.BoxB] false) Geo.BoxB Hin).
Defined.


Lemma boxes_mut_live_witness :
  Geo.store7 !! 7 = Some Geo.h7 ∧
  ∃ v, boxes_mut 7 Geo.store7 = Some v ∧
       vector_load v Geo.store7 = Some (boxes Geo.h7) ∧
       (∀ b σ', add_box 7 b Geo.store7 = Some (7, σ') →
                vector_load v σ' = Some (boxes Geo.h7 ++ [b])) ∧
       (∀ f, ∃ σ', vector_store v f Geo.store7 = Some σ' ∧
                   set_boxes 7 (f (boxes Geo.h7)) Geo.store7 = Some (7, σ') ∧
                   call boxes 7 σ' = Some (f (boxes Geo.h7)) ∧
                   call joined_boxes 7 σ'
                     = Some (fold_left extend (f (boxes Geo.h7)) Box_default) ∧
                   call has_multiple_object_versions 7 σ'
                     = Some (has_multiple_object_versions Geo.h7)).
Proof.
  split; [reflexivity|].
  exact (boxes_mut_live Geo.store7 7 Geo.h7 eq_refl).
Defined.

(** * Validity of the joined box after add_box *)

(** X13. [add_box] never makes a valid joined box invalid: the joined box
    after [add_box b] is valid exactly when the joined box before the call
    or [b] is valid. *)
Theorem add_box_joined_boxes_valid {Box : Type} `{BoxContract Box}
    (σ : gmap nat (Header Box)) (this : ref) (h : Header Box) (b : Box) :
  σ !! this = Some h →
  ∃ σ', add_box this b σ = Some (this, σ') ∧
        call (λ h', valid (joined_boxes h')) this σ'
          = Some (valid (joined_boxes h) || valid b).
Proof.
  intros Hh. eexists. split; [by apply this_update_Some|].
  rewrite call_insert. unfold joined_boxes. simpl.
  by rewrite joined_boxes_loop_push_back, valid_extend.
Qed.

Lemma add_box_joined_boxes_valid_witness :
  BoxContract Geo.Box ∧
  Geo.store7 !! 7 = Some Geo.h7 ∧
  ∃ σ', add_box 7 Geo.Invalid Geo.store7 = Some (7, σ') ∧
        call (λ h', valid (joined_boxes h')) 7 σ'
          = Some (valid (joined_boxes Geo.h7) || valid Geo.Invalid).
Proof.
  split; [exact Geo_contract|]. split; [reflexivity|].
  exact (add_box_joined_boxes_valid Geo.store7 7 Geo.h7 Geo.Invalid eq_refl).
Defined.
